(** * mthread.h: running POSIX threads on C++ member functions

    A shallow embedding of [src/mthread.h].  The template class
    [mthread<T,R>] stores the data of one deferred member-function call
    (a "call context"); the two static trampolines [func_no_args] and
    [func_args] are the start routines handed to [pthread_create]; the
    two [create] overloads and the two [mthread_create] free functions
    are the public surface.

    Pointers are addresses ([N], with [NULL = 0]).  The contexts allocated
    with [new] live in a finite map from addresses to [mthread] records.
    Everything the client owns (the objects of class [T], the argument
    payloads) is the client's [World]; the member functions of [T] are
    given by their effect on that world.  Each stateful function of the
    header is a computation in a state-and-outcome monad. *)

From stdpp Require Import gmap list.

Open Scope N_scope.

(** ** Pointers *)

Definition ptr : Type := N.
Definition NULL : ptr := 0.

(** A member function of [T] is identified by a number; a pointer to
    member function (the types of [f_start_routine] in the two overloads)
    is either null or designates one member function. *)
Definition method : Type := N.
Definition pmf : Type := option method.
Definition PMF_NULL : pmf := None.

(** ** Outcomes of a call

    A C++ call returns, lets an exception escape, or has undefined
    behaviour (a null pointer to member, a dangling context, ...). *)
Inductive outcome (E A : Type) : Type :=
| Returns (a : A)
| Raises (e : E)
| Undefined.
Arguments Returns {E A} a.
Arguments Raises {E A} e.
Arguments Undefined {E A}.

(** ** The template parameters [T] and [R]

    [World] is the memory owned by the client; [call_no_arg m this w] is
    the effect of [(this->*m)()] and [call_arg m this arg w] the effect of
    [(this->*m)(arg)] for a non-null [this]. *)
Class OwnerClass : Type := {
  World : Type;
  R : Type;
  Exn : Type;
  call_no_arg : method → ptr → World → outcome Exn R * World;
  call_arg : method → ptr → ptr → World → outcome Exn R * World
}.

(** ** The fields of [mthread<T,R>] (lines 115-118) *)
Record mthread : Type := Mthread {
  mp_ref : ptr;
  mp_arg : ptr;
  mf_no_arg : pmf;
  mf_arg : pmf
}.

#[global] Instance mthread_eq_dec : EqDecision mthread.
Proof. solve_decision. Defined.

(** The two start routines this header ever passes to [pthread_create]. *)
Inductive start_routine : Type := FuncNoArgs | FuncArgs.

#[global] Instance start_routine_eq_dec : EqDecision start_routine.
Proof. solve_decision. Defined.

(** A thread the native runtime has accepted and not run yet. *)
Record thread : Type := Thread {
  t_id : N;
  t_start : start_routine;
  t_payload : ptr
}.

(** ** The native runtime

    [native_status ts attr] is the status code [pthread_create] answers
    when the threads [ts] are pending and the attributes are at [attr]. *)
Class Pthreads : Type := {
  native_status : list thread → ptr → Z
}.

(** ** Observable events *)
Inductive event : Type :=
| EvNew (a : ptr) (c : mthread)
| EvDtor (a : ptr)
| EvFree (a : ptr)
| EvPthreadCreate (p_thread p_attr : ptr) (start : start_routine) (arg : ptr) (rc : Z)
| EvCallNoArg (m : method) (this : ptr)
| EvCallArg (m : method) (this : ptr) (arg : ptr).

Section Mthread.
Context `{OC : OwnerClass} `{PT : Pthreads}.

(** ** Program state *)
Record state : Type := State {
  heap : gmap N mthread;
  world : World;
  threads : list thread;
  handles : gmap N N;
  next_tid : N;
  trace : list event
}.

Definition set_heap (h : gmap N mthread) (s : state) : state :=
  State h (world s) (threads s) (handles s) (next_tid s) (trace s).
Definition set_world (w : World) (s : state) : state :=
  State (heap s) w (threads s) (handles s) (next_tid s) (trace s).
Definition set_threads (ts : list thread) (s : state) : state :=
  State (heap s) (world s) ts (handles s) (next_tid s) (trace s).
Definition log (ev : event) (s : state) : state :=
  State (heap s) (world s) (threads s) (handles s) (next_tid s) (trace s ++ [ev]).

(** ** The monad of stateful calls *)
Definition M (A : Type) : Type := state → outcome Exn A * state.

Definition ret {A} (a : A) : M A := λ s, (Returns a, s).

Definition bind {A B} (m : M A) (k : A → M B) : M B := λ s,
  match m s with
  | (Returns a, s') => k a s'
  | (Raises e, s') => (Raises e, s')
  | (Undefined, s') => (Undefined, s')
  end.

#[local] Instance M_ret : MRet M := @ret.
#[local] Instance M_bind : MBind M := λ A B k m, bind m k.

(** ** Constructors (lines 127-132 and 142-147) *)

Definition mthread_ctor_no_arg (p_ref : ptr) (f_func : pmf) : mthread :=
  {| mp_ref := p_ref;
     mf_arg := PMF_NULL;
     mf_no_arg := f_func;
     mp_arg := NULL |}.

Definition mthread_ctor_arg (p_ref : ptr) (f_func : pmf) (p_arg : ptr) : mthread :=
  {| mp_ref := p_ref;
     mf_arg := f_func;
     mf_no_arg := PMF_NULL;
     mp_arg := p_arg |}.

(** ** Destructor (lines 153-156): the body of [~mthread] on one object *)
Definition mthread_dtor_fields (c : mthread) : mthread :=
  {| mp_ref := NULL;
     mp_arg := NULL;
     mf_no_arg := mf_no_arg c;
     mf_arg := mf_arg c |}.

(** [~mthread] run on the object at [p]. *)
Definition mthread_dtor (p : ptr) : M unit := λ s,
  match heap s !! p with
  | None => (Undefined, s)
  | Some c => (Returns tt, log (EvDtor p) (set_heap (<[p := mthread_dtor_fields c]> (heap s)) s))
  end.

(** ** [new] and [delete] *)

(** The address [new] hands out: non-null and not in use. *)
Definition new_addr (h : gmap N mthread) : ptr :=
  fresh (({[NULL]} : gset N) ∪ dom h).

(** [new mthread(...)], with the already constructed fields [c]. *)
Definition new_mthread (c : mthread) : M ptr := λ s,
  let a := new_addr (heap s) in
  (Returns a, log (EvNew a c) (set_heap (<[a := c]> (heap s)) s)).

(** Releasing the storage at [p]. *)
Definition free (p : ptr) : M unit := λ s,
  match heap s !! p with
  | None => (Undefined, s)
  | Some _ => (Returns tt, log (EvFree p) (set_heap (delete p (heap s)) s))
  end.

(** [delete p]: nothing for a null pointer, otherwise the destructor and
    then the release of the storage. *)
Definition delete_mthread (p : ptr) : M unit :=
  if decide (p = NULL) then mret tt
  else mthread_dtor p ;; free p.

(** ** Calls through a pointer to member: [(this->*f)()] and [(this->*f)(arg)] *)

Definition invoke_no_arg (this : ptr) (f : pmf) : M R := λ s,
  match f with
  | None => (Undefined, s)
  | Some m =>
      if decide (this = NULL) then (Undefined, s)
      else
        let s1 := log (EvCallNoArg m this) s in
        let '(o, w) := call_no_arg m this (world s1) in
        (o, set_world w s1)
  end.

Definition invoke_arg (this : ptr) (f : pmf) (arg : ptr) : M R := λ s,
  match f with
  | None => (Undefined, s)
  | Some m =>
      if decide (this = NULL) then (Undefined, s)
      else
        let s1 := log (EvCallArg m this arg) s in
        let '(o, w) := call_arg m this arg (world s1) in
        (o, set_world w s1)
  end.

(** Reading the object a start routine's opaque argument is cast to. *)
Definition deref (p : ptr) : M mthread := λ s,
  if decide (p = NULL) then (Undefined, s)
  else
    match heap s !! p with
    | None => (Undefined, s)
    | Some c => (Returns c, s)
    end.

(** ** The trampolines (lines 80-86 and 99-105) *)

Definition func_args (p_arg : ptr) : M ptr :=
  let p_wrap := p_arg in
  c ← deref p_wrap;
  invoke_arg (mp_ref c) (mf_arg c) (mp_arg c) ;;
  delete_mthread p_wrap ;;
  mret NULL.

Definition func_no_args (p_arg : ptr) : M ptr :=
  let p_wrap := p_arg in
  c ← deref p_wrap;
  invoke_no_arg (mp_ref c) (mf_no_arg c) ;;
  delete_mthread p_wrap ;;
  mret NULL.

Definition run_start_routine (start : start_routine) : ptr → M ptr :=
  match start with
  | FuncNoArgs => func_no_args
  | FuncArgs => func_args
  end.

(** ** The native primitive *)

(** Modelled from the spec: [pthread_create] comes from [pthread.h], not
    from this header.  Its contract: it answers a status code; on status 0
    it stores a new thread identifier in [*p_thread] and keeps the pair
    (start routine, payload) to be run later as a new thread; on any other
    status no thread exists (the model leaves [*p_thread] as it was). *)
Definition pthread_create (p_thread p_attr : ptr) (start : start_routine) (arg : ptr) : M Z := λ s,
  let rc := native_status (threads s) p_attr in
  let s1 := log (EvPthreadCreate p_thread p_attr start arg rc) s in
  if decide (rc = 0%Z)
  then (Returns rc,
        State (heap s1) (world s1)
              (threads s1 ++ [Thread (next_tid s1) start arg])
              (<[p_thread := next_tid s1]> (handles s1))
              (N.succ (next_tid s1)) (trace s1))
  else (Returns rc, s1).

(** ** The launch operations (lines 38-40 and 62-64) *)

Definition create_no_arg (p_thread p_attr p_ref : ptr) (f_start_routine : pmf) : M Z :=
  p ← new_mthread (mthread_ctor_no_arg p_ref f_start_routine);
  pthread_create p_thread p_attr FuncNoArgs p.

Definition create_arg (p_thread p_attr p_ref : ptr) (f_start_routine : pmf) (p_arg : ptr) : M Z :=
  p ← new_mthread (mthread_ctor_arg p_ref f_start_routine p_arg);
  pthread_create p_thread p_attr FuncArgs p.

(** ** The free functions (lines 179-182 and 204-207) *)

Definition mthread_create_no_arg (p_thread p_attr p_ref : ptr) (f_start_routine : pmf) : M Z :=
  create_no_arg p_thread p_attr p_ref f_start_routine.

Definition mthread_create_arg (p_thread p_attr p_ref : ptr) (f_start_routine : pmf) (p_arg : ptr) : M Z :=
  create_arg p_thread p_attr p_ref f_start_routine p_arg.

(** ** The whole program

    The launching thread calls the launch operations and runs client code;
    the runtime runs a pending thread's start routine on its payload.  A
    start routine is run as one step: the context is touched by no other
    thread while it runs.  A start routine that does not return ends the
    process, so there is no step for it. *)

Definition payloads (s : state) : list ptr := t_payload <$> threads s.

Inductive step : state → state → Prop :=
| step_create_no_arg s p_thread p_attr p_ref f :
    step s (create_no_arg p_thread p_attr p_ref f s).2
| step_create_arg s p_thread p_attr p_ref f p_arg :
    step s (create_arg p_thread p_attr p_ref f p_arg s).2
| step_run s ts1 t ts2 r s' :
    threads s = ts1 ++ t :: ts2 →
    run_start_routine (t_start t) (t_payload t) (set_threads (ts1 ++ ts2) s) = (Returns r, s') →
    step s s'
| step_client s w :
    step s (set_world w s).

(** Every pending thread has a live context of its own. *)
Definition contexts_owned (s : state) : Prop :=
  NoDup (payloads s) ∧ Forall (λ a, is_Some (heap s !! a)) (payloads s).

#[global] Instance contexts_owned_dec s : Decision (contexts_owned s).
Proof. unfold contexts_owned. apply _. Defined.

(** ** Predicates on a context *)

Definition is_set (f : pmf) : Prop := f ≠ PMF_NULL.

Definition exactly_one_set (c : mthread) : Prop :=
  (is_set (mf_no_arg c) ∧ mf_arg c = PMF_NULL) ∨
  (mf_no_arg c = PMF_NULL ∧ is_set (mf_arg c)).

Definition both_set (c : mthread) : Prop :=
  is_set (mf_no_arg c) ∧ is_set (mf_arg c).

(** The state with the argument field of the context at [p] replaced. *)
Definition poke_arg (p x : ptr) (s : state) : state :=
  match heap s !! p with
  | None => s
  | Some c =>
      set_heap (<[p := Mthread (mp_ref c) x (mf_no_arg c) (mf_arg c)]> (heap s)) s
  end.

(** The state once the context at [p] has been destroyed by [delete]:
    the destructor has run, the storage is released, nothing else moved. *)
Definition destroyed (p : ptr) (s : state) : state :=
  log (EvFree p) (log (EvDtor p) (set_heap (delete p (heap s)) s)).

(** The state once member function [m] has been entered on [this] (with
    [arg]) and has left the client's world as [w]. *)
Definition called_arg (m : method) (this arg : ptr) (w : World) (s : state) : state :=
  set_world w (log (EvCallArg m this arg) s).

Definition called_no_arg (m : method) (this : ptr) (w : World) (s : state) : state :=
  set_world w (log (EvCallNoArg m this) s).

(** The callee a trampoline reaches from the context at [p], if any. *)
Definition callee_arg (s : state) (p : ptr) : option (method * ptr * ptr) :=
  if decide (p = NULL) then None
  else c ← heap s !! p; m ← mf_arg c;
       if decide (mp_ref c = NULL) then None else Some (m, mp_ref c, mp_arg c).

Definition callee_no_arg (s : state) (p : ptr) : option (method * ptr) :=
  if decide (p = NULL) then None
  else c ← heap s !! p; m ← mf_no_arg c;
       if decide (mp_ref c = NULL) then None else Some (m, mp_ref c).

(** The state with the context at [p] left out. *)
Definition without (p : ptr) (s : state) : state :=
  set_heap (delete p (heap s)) s.

End Mthread.

(** ** A client: the classes of the usage example

    Objects are memory cells holding an integer.  Member function 0 is a
    [do_work()] that increments the cell of its object, member function 1
    a [do_work(void * data)] that copies the integer behind [data] into the
    cell of its object, member function 2 throws, and member function 3
    takes an argument and throws it. *)
Module Demo.

Definition cell (w : gmap N Z) (a : ptr) : Z := default 0%Z (w !! a).

Definition do_work (m : method) (this : ptr) (w : gmap N Z) : outcome N unit * gmap N Z :=
  if decide (m = 0) then (Returns tt, <[this := (cell w this + 1)%Z]> w)
  else if decide (m = 2) then (Raises 7, w)
  else (Undefined, w).

Definition do_work_data (m : method) (this data : ptr) (w : gmap N Z) : outcome N unit * gmap N Z :=
  if decide (m = 1) then (Returns tt, <[this := cell w data]> w)
  else if decide (m = 3) then (Raises data, w)
  else (Undefined, w).

Definition SomeClass : OwnerClass :=
  {| World := gmap N Z; R := unit; Exn := N;
     call_no_arg := do_work; call_arg := do_work_data |}.

(** A runtime that accepts two pending threads and answers [EAGAIN]
    beyond that. *)
Definition EAGAIN : Z := 11.
Definition two_threads : Pthreads :=
  {| native_status := λ ts _, if decide (length ts < 2)%nat then 0%Z else EAGAIN |}.

(** The owner object is at address 10, the payload at 20 holds 42. *)
Definition start : @state SomeClass :=
  State ∅ (<[20 := 42%Z]> (<[10 := 0%Z]> ∅)) [] ∅ 0 [].

(** The state after [mthread_create(&thread, &attr, p_ref, do_work, p_info)],
    with the thread handle at 100 and the attributes at 0. *)
Definition launched_arg : @state SomeClass :=
  (@mthread_create_arg SomeClass two_threads 100 0 10 (Some 1) 20 start).2.

(** The state after two no-argument launches, both pending. *)
Definition launched_twice : @state SomeClass :=
  (@mthread_create_no_arg SomeClass two_threads 101 0 10 (Some 0)
     (@mthread_create_no_arg SomeClass two_threads 100 0 10 (Some 0) start).2).2.

End Demo.

(** ** Runs of a start routine, and what the trace counts *)

Section Runs.
Context `{OC : OwnerClass} `{PT : Pthreads}.

(** The context [c] is what the constructor used by the launch of start
    routine [start] builds (lines 127-132 for [func_no_args], lines
    142-147 for [func_args]). *)
Definition built_for (start : start_routine) (c : mthread) : Prop :=
  match start with
  | FuncNoArgs => c = mthread_ctor_no_arg (mp_ref c) (mf_no_arg c)
  | FuncArgs => c = mthread_ctor_arg (mp_ref c) (mf_arg c) (mp_arg c)
  end.

(** Every pending thread has a live context of its own, built by the
    constructor of the thread's arity. *)
Definition well_launched (s : state) : Prop :=
  contexts_owned s ∧
  Forall (λ t, ∃ c, heap s !! t_payload t = Some c ∧ built_for (t_start t) c)
         (threads s).

Definition is_call (ev : event) : bool :=
  match ev with
  | EvCallNoArg _ _ | EvCallArg _ _ _ => true
  | _ => false
  end.


Definition is_free (ev : event) : bool :=
  match ev with EvFree _ => true | _ => false end.



(** How many events of a kind the trace holds. *)
Definition tally (f : event → bool) (l : list event) : nat :=
  length (List.filter f l).


(** The ways a start routine can end on the opaque pointer [p] in state
    [s]: without reaching a member function, or having called one (the
    event [ev]) that returned, raised or went wrong, leaving the client's
    world as [w]. *)
Inductive ran (s : state) (p : ptr) : outcome Exn ptr * state → Prop :=
| ran_nothing :
    ran s p (Undefined, s)
| ran_returned c ev w :
    p ≠ NULL → heap s !! p = Some c → is_call ev = true →
    ran s p (Returns NULL, destroyed p (set_world w (log ev s)))
| ran_raised c ev w e :
    p ≠ NULL → heap s !! p = Some c → is_call ev = true →
    ran s p (Raises e, set_world w (log ev s))
| ran_wrong c ev w :
    p ≠ NULL → heap s !! p = Some c → is_call ev = true →
    ran s p (Undefined, set_world w (log ev s)).

End Runs.

(** More states of the usage example. *)
Module DemoRuns.

(** A launch of member function 3, which throws its argument. *)
Definition launched_thrower : @state Demo.SomeClass :=
  (@mthread_create_arg Demo.SomeClass Demo.two_threads 100 0 10 (Some 3) 20 Demo.start).2.

(** Two launches, then the first thread has run to its end. *)
Definition first_joined : @state Demo.SomeClass :=
  (@func_no_args Demo.SomeClass 1
     (set_threads [Thread 1 FuncNoArgs 2] Demo.launched_twice)).2.

(** A launch with a null owner. *)
Definition launched_null_owner : @state Demo.SomeClass :=
  (@mthread_create_no_arg Demo.SomeClass Demo.two_threads 100 0 NULL (Some 0) Demo.start).2.

End DemoRuns.

(** * Properties *)

Section Properties.
Context `{OC : OwnerClass} `{PT : Pthreads}.

Implicit Types (s : state) (p a : ptr) (c : mthread).

(** ** Allocation *)

Lemma new_addr_not_null (h : gmap N mthread) : new_addr h ≠ NULL.
Proof.
  unfold new_addr.
  pose proof (is_fresh (({[NULL]} : gset N) ∪ dom h)) as Hf.
  set_solver.
Qed.

Lemma new_addr_fresh (h : gmap N mthread) : h !! new_addr h = None.
Proof.
  unfold new_addr.
  pose proof (is_fresh (({[NULL]} : gset N) ∪ dom h)) as Hf.
  apply not_elem_of_dom. set_solver.
Qed.

(** ** What [delete] does to a live context *)

Lemma destroyed_gone s p : heap (destroyed p s) !! p = None.
Proof. cbn. apply lookup_delete_eq. Qed.

Lemma delete_mthread_live s p c :
  p ≠ NULL → heap s !! p = Some c →
  delete_mthread p s = (Returns tt, destroyed p s).
Proof.
  intros Hp Hc. unfold delete_mthread.
  destruct (decide (p = NULL)) as [|_]; [done|].
  unfold mbind, M_bind, bind, mthread_dtor, free. rewrite Hc. cbn.
  rewrite lookup_insert_eq. unfold destroyed, log, set_heap. cbn.
  by rewrite delete_insert_eq.
Qed.

(** ** The trampolines, step by step *)

Lemma func_args_live s p c m :
  p ≠ NULL → heap s !! p = Some c → mf_arg c = Some m → mp_ref c ≠ NULL →
  func_args p s =
    match call_arg m (mp_ref c) (mp_arg c) (world s) with
    | (Returns _, w) => (Returns NULL, destroyed p (called_arg m (mp_ref c) (mp_arg c) w s))
    | (Raises e, w) => (Raises e, called_arg m (mp_ref c) (mp_arg c) w s)
    | (Undefined, w) => (Undefined, called_arg m (mp_ref c) (mp_arg c) w s)
    end.
Proof.
  intros Hp Hc Hm Hr. unfold func_args, mbind, M_bind, bind, deref.
  destruct (decide (p = NULL)) as [|_]; [done|]. rewrite Hc.
  unfold invoke_arg. rewrite Hm. destruct (decide (mp_ref c = NULL)) as [|_]; [done|].
  cbn. destruct (call_arg m (mp_ref c) (mp_arg c) (world s)) as [[r|e|] w]; try done.
  fold (called_arg m (mp_ref c) (mp_arg c) w s).
  by rewrite (delete_mthread_live _ p c).
Qed.

Lemma func_no_args_live s p c m :
  p ≠ NULL → heap s !! p = Some c → mf_no_arg c = Some m → mp_ref c ≠ NULL →
  func_no_args p s =
    match call_no_arg m (mp_ref c) (world s) with
    | (Returns _, w) => (Returns NULL, destroyed p (called_no_arg m (mp_ref c) w s))
    | (Raises e, w) => (Raises e, called_no_arg m (mp_ref c) w s)
    | (Undefined, w) => (Undefined, called_no_arg m (mp_ref c) w s)
    end.
Proof.
  intros Hp Hc Hm Hr. unfold func_no_args, mbind, M_bind, bind, deref.
  destruct (decide (p = NULL)) as [|_]; [done|]. rewrite Hc.
  unfold invoke_no_arg. rewrite Hm. destruct (decide (mp_ref c = NULL)) as [|_]; [done|].
  cbn. destruct (call_no_arg m (mp_ref c) (world s)) as [[r|e|] w]; try done.
  fold (called_no_arg m (mp_ref c) w s).
  by rewrite (delete_mthread_live _ p c).
Qed.

(** Outside those cases the call has no defined behaviour. *)

Lemma func_args_no_context s p :
  p = NULL ∨ heap s !! p = None → func_args p s = (Undefined, s).
Proof.
  intros Hp. unfold func_args, mbind, M_bind, bind, deref.
  destruct (decide (p = NULL)); [done|].
  destruct Hp as [|Hp]; [done|]. by rewrite Hp.
Qed.

Lemma func_args_no_callee s p c :
  heap s !! p = Some c → mf_arg c = PMF_NULL ∨ mp_ref c = NULL →
  func_args p s = (Undefined, s).
Proof.
  intros Hc Hn. unfold func_args, mbind, M_bind, bind, deref.
  destruct (decide (p = NULL)); [done|]. rewrite Hc. unfold invoke_arg.
  destruct (mf_arg c); [|done].
  destruct (decide (mp_ref c = NULL)); [done|]. by destruct Hn.
Qed.

Lemma func_no_args_no_context s p :
  p = NULL ∨ heap s !! p = None → func_no_args p s = (Undefined, s).
Proof.
  intros Hp. unfold func_no_args, mbind, M_bind, bind, deref.
  destruct (decide (p = NULL)); [done|].
  destruct Hp as [|Hp]; [done|]. by rewrite Hp.
Qed.

Lemma func_no_args_no_callee s p c :
  heap s !! p = Some c → mf_no_arg c = PMF_NULL ∨ mp_ref c = NULL →
  func_no_args p s = (Undefined, s).
Proof.
  intros Hc Hn. unfold func_no_args, mbind, M_bind, bind, deref.
  destruct (decide (p = NULL)); [done|]. rewrite Hc. unfold invoke_no_arg.
  destruct (mf_no_arg c); [|done].
  destruct (decide (mp_ref c = NULL)); [done|]. by destruct Hn.
Qed.

(** ** The launch operations, step by step *)

Lemma create_arg_run s p_thread p_attr p_ref f p_arg :
  create_arg p_thread p_attr p_ref f p_arg s =
    pthread_create p_thread p_attr FuncArgs (new_addr (heap s))
      (log (EvNew (new_addr (heap s)) (mthread_ctor_arg p_ref f p_arg))
         (set_heap (<[new_addr (heap s) := mthread_ctor_arg p_ref f p_arg]> (heap s)) s)).
Proof. reflexivity. Qed.

Lemma create_no_arg_run s p_thread p_attr p_ref f :
  create_no_arg p_thread p_attr p_ref f s =
    pthread_create p_thread p_attr FuncNoArgs (new_addr (heap s))
      (log (EvNew (new_addr (heap s)) (mthread_ctor_no_arg p_ref f))
         (set_heap (<[new_addr (heap s) := mthread_ctor_no_arg p_ref f]> (heap s)) s)).
Proof. reflexivity. Qed.

Lemma pthread_create_heap s p_thread p_attr start arg :
  heap (pthread_create p_thread p_attr start arg s).2 = heap s.
Proof. unfold pthread_create. by case_decide. Qed.

Lemma pthread_create_world s p_thread p_attr start arg :
  world (pthread_create p_thread p_attr start arg s).2 = world s.
Proof. unfold pthread_create. by case_decide. Qed.

Lemma pthread_create_status s p_thread p_attr start arg :
  (pthread_create p_thread p_attr start arg s).1 = Returns (native_status (threads s) p_attr).
Proof. unfold pthread_create. by case_decide. Qed.

Lemma pthread_create_threads s p_thread p_attr start arg :
  threads (pthread_create p_thread p_attr start arg s).2 =
    if decide (native_status (threads s) p_attr = 0%Z)
    then threads s ++ [Thread (next_tid s) start arg]
    else threads s.
Proof. unfold pthread_create. by case_decide. Qed.

Lemma pthread_create_trace s p_thread p_attr start arg :
  trace (pthread_create p_thread p_attr start arg s).2 =
    trace s ++ [EvPthreadCreate p_thread p_attr start arg (native_status (threads s) p_attr)].
Proof. unfold pthread_create. by case_decide. Qed.

Lemma create_arg_heap s p_thread p_attr p_ref f p_arg :
  heap (create_arg p_thread p_attr p_ref f p_arg s).2 =
    <[new_addr (heap s) := mthread_ctor_arg p_ref f p_arg]> (heap s).
Proof. by rewrite create_arg_run, pthread_create_heap. Qed.

Lemma create_no_arg_heap s p_thread p_attr p_ref f :
  heap (create_no_arg p_thread p_attr p_ref f s).2 =
    <[new_addr (heap s) := mthread_ctor_no_arg p_ref f]> (heap s).
Proof. by rewrite create_no_arg_run, pthread_create_heap. Qed.

(** C1: the with-argument trampoline, applied to the context the
    single-argument launch built for owner [owner], member function [m]
    and argument [v], calls [m] on [owner] with [v] itself; once [m] has
    returned it destroys the context and returns the null pointer.  The
    result is given for each way [m] can end. *)
Theorem func_args_runs_bound_call s p_thread p_attr (owner : ptr) (m : method) (v : ptr) :
  owner ≠ NULL →
  let p := new_addr (heap s) in
  let c := mthread_ctor_arg owner (Some m) v in
  heap (create_arg p_thread p_attr owner (Some m) v s).2 !! p = Some c ∧
  ∀ s2, heap s2 !! p = Some c →
    match call_arg m owner v (world s2) with
    | (Returns _, w) =>
        func_args p s2 = (Returns NULL, destroyed p (called_arg m owner v w s2))
    | (Raises e, w) =>
        func_args p s2 = (Raises e, called_arg m owner v w s2)
    | (Undefined, w) =>
        func_args p s2 = (Undefined, called_arg m owner v w s2)
    end.
Proof.
  intros Ho p c. split.
  - rewrite create_arg_heap. apply lookup_insert_eq.
  - intros s2 Hc.
    rewrite (func_args_live s2 p c m); [|apply new_addr_not_null|done..].
    cbn. by destruct (call_arg m owner v (world s2)) as [[r|e|] w].
Qed.

(** C2: the no-argument trampoline, applied to the context the
    no-argument launch built for owner [owner] and member function [m],
    reads the context behind the opaque pointer, calls [m] on [owner];
    once [m] has returned it destroys the context and returns the null
    pointer.  The result is given for each way [m] can end. *)
Theorem func_no_args_runs_bound_call s p_thread p_attr (owner : ptr) (m : method) :
  owner ≠ NULL →
  let p := new_addr (heap s) in
  let c := mthread_ctor_no_arg owner (Some m) in
  heap (create_no_arg p_thread p_attr owner (Some m) s).2 !! p = Some c ∧
  ∀ s2, heap s2 !! p = Some c →
    match call_no_arg m owner (world s2) with
    | (Returns _, w) =>
        func_no_args p s2 = (Returns NULL, destroyed p (called_no_arg m owner w s2))
    | (Raises e, w) =>
        func_no_args p s2 = (Raises e, called_no_arg m owner w s2)
    | (Undefined, w) =>
        func_no_args p s2 = (Undefined, called_no_arg m owner w s2)
    end.
Proof.
  intros Ho p c. split.
  - rewrite create_no_arg_heap. apply lookup_insert_eq.
  - intros s2 Hc.
    rewrite (func_no_args_live s2 p c m); [|apply new_addr_not_null|done..].
    cbn. by destruct (call_no_arg m owner (world s2)) as [[r|e|] w].
Qed.

(** C3: each constructor stores the procedure pointer it
    is given in the field of its own arity and the null pointer in the
    field of the other arity, so no context has both fields set, and
    exactly one is set precisely when the given pointer is not null; the
    context each launch leaves in the heap is the one its constructor
    built. *)
Theorem ctor_sets_own_field_only s p_thread p_attr (p_ref : ptr) (f : pmf) (p_arg : ptr) :
  let c0 := mthread_ctor_no_arg p_ref f in
  let c1 := mthread_ctor_arg p_ref f p_arg in
  (mf_no_arg c0 = f ∧ mf_arg c0 = PMF_NULL) ∧
  (mf_arg c1 = f ∧ mf_no_arg c1 = PMF_NULL) ∧
  ¬ both_set c0 ∧ ¬ both_set c1 ∧
  (exactly_one_set c0 ↔ is_set f) ∧
  (exactly_one_set c1 ↔ is_set f) ∧
  heap (create_no_arg p_thread p_attr p_ref f s).2 !! new_addr (heap s) = Some c0 ∧
  heap (create_arg p_thread p_attr p_ref f p_arg s).2 !! new_addr (heap s) = Some c1.
Proof.
  intros c0 c1. unfold both_set, exactly_one_set, is_set. cbn.
  split_and!; try done.
  - tauto.
  - tauto.
  - tauto.
  - tauto.
  - rewrite create_no_arg_heap. apply lookup_insert_eq.
  - rewrite create_arg_heap. apply lookup_insert_eq.
Qed.

(** C5: what either launch returns is the status code of
    [pthread_create], as it is: 0 when the thread was accepted, the
    native code otherwise. *)
Theorem create_returns_native_status s p_thread p_attr (p_ref : ptr) (f : pmf) (p_arg : ptr) :
  let p := new_addr (heap s) in
  let rc := native_status (threads s) p_attr in
  let s0 := (new_mthread (mthread_ctor_no_arg p_ref f) s).2 in
  let s1 := (new_mthread (mthread_ctor_arg p_ref f p_arg) s).2 in
  (create_no_arg p_thread p_attr p_ref f s).1 = (pthread_create p_thread p_attr FuncNoArgs p s0).1 ∧
  (create_arg p_thread p_attr p_ref f p_arg s).1 = (pthread_create p_thread p_attr FuncArgs p s1).1 ∧
  (create_no_arg p_thread p_attr p_ref f s).1 = Returns rc ∧
  (create_arg p_thread p_attr p_ref f p_arg s).1 = Returns rc ∧
  (rc = 0%Z ↔ threads (create_no_arg p_thread p_attr p_ref f s).2 ≠ threads s) ∧
  (rc = 0%Z ↔ threads (create_arg p_thread p_attr p_ref f p_arg s).2 ≠ threads s).
Proof.
  intros p rc s0 s1.
  assert (∀ (l : list thread) t, l ++ [t] ≠ l) as Hneq.
  { intros l t Heq. apply (f_equal length) in Heq. rewrite length_app in Heq. cbn in Heq. lia. }
  repeat split; try done.
  - rewrite create_no_arg_run. apply pthread_create_status.
  - rewrite create_arg_run. apply pthread_create_status.
  - intros Hrc. rewrite create_no_arg_run, pthread_create_threads. cbn. fold rc.
    rewrite decide_True by done. apply Hneq.
  - rewrite create_no_arg_run, pthread_create_threads. cbn. fold rc.
    case_decide; done.
  - intros Hrc. rewrite create_arg_run, pthread_create_threads. cbn. fold rc.
    rewrite decide_True by done. apply Hneq.
  - rewrite create_arg_run, pthread_create_threads. cbn. fold rc.
    case_decide; done.
Qed.

(** C7: the destructor, run on a context, leaves it with a null owner
    reference and a null argument reference; the client's world (where
    the owner and the argument payload live) is as before, nothing is
    deallocated and no other context changes. *)
Theorem dtor_clears_references_only s p c :
  heap s !! p = Some c →
  ∃ s', mthread_dtor p s = (Returns tt, s') ∧
    heap s' !! p = Some (Mthread NULL NULL (mf_no_arg c) (mf_arg c)) ∧
    world s' = world s ∧
    dom (heap s') = dom (heap s) ∧
    (∀ q, q ≠ p → heap s' !! q = heap s !! q) ∧
    threads s' = threads s.
Proof.
  intros Hc. unfold mthread_dtor. rewrite Hc. eexists; split; [done|]. cbn.
  repeat split.
  - apply lookup_insert_eq.
  - apply dom_insert_lookup_L. by rewrite Hc.
  - intros q Hq. by apply lookup_insert_ne.
Qed.

(** C10: each free function [mthread_create] gives, on all arguments and
    in every state, what the [create] overload of the same arity gives. *)
Theorem mthread_create_is_create s p_thread p_attr (p_ref : ptr) (f : pmf) (p_arg : ptr) :
  mthread_create_no_arg p_thread p_attr p_ref f s = create_no_arg p_thread p_attr p_ref f s ∧
  mthread_create_arg p_thread p_attr p_ref f p_arg s = create_arg p_thread p_attr p_ref f p_arg s.
Proof. split; reflexivity. Qed.

(** C8: a trampoline lets an exception [e] escape exactly when the
    member function it calls lets [e] escape: nothing is caught, nothing
    is turned into a returned value, and the trampoline raises nothing of
    its own. *)
Theorem trampolines_raise_iff_callee_raises s p (e : Exn) :
  ((func_args p s).1 = Raises e ↔
     ∃ m this arg, callee_arg s p = Some (m, this, arg) ∧
                   (call_arg m this arg (world s)).1 = Raises e) ∧
  ((func_no_args p s).1 = Raises e ↔
     ∃ m this, callee_no_arg s p = Some (m, this) ∧
               (call_no_arg m this (world s)).1 = Raises e).
Proof.
  split.
  - unfold callee_arg. destruct (decide (p = NULL)) as [Hp|Hp].
    { rewrite func_args_no_context by auto. cbn. split; [done|]. by intros (?&?&?&?&?). }
    destruct (heap s !! p) as [c|] eqn:Hc; cbn; last first.
    { rewrite func_args_no_context by auto. cbn. split; [done|]. by intros (?&?&?&?&?). }
    destruct (mf_arg c) as [m|] eqn:Hm; cbn; last first.
    { rewrite (func_args_no_callee s p c) by auto. cbn. split; [done|]. by intros (?&?&?&?&?). }
    destruct (decide (mp_ref c = NULL)) as [Hr|Hr].
    { rewrite (func_args_no_callee s p c) by auto. cbn. split; [done|]. by intros (?&?&?&?&?). }
    rewrite (func_args_live s p c m) by done.
    destruct (call_arg m (mp_ref c) (mp_arg c) (world s)) as [[r|e'|] w] eqn:Hcall;
      cbn; split; try done.
    + intros (m' & this & arg & Heq & Hr'). injection Heq as <- <- <-.
      rewrite Hcall in Hr'. cbn in Hr'. congruence.
    + intros [= ->]. exists m, (mp_ref c), (mp_arg c). split; [done|]. by rewrite Hcall.
    + intros (m' & this & arg & Heq & Hr'). injection Heq as <- <- <-.
      rewrite Hcall in Hr'. cbn in Hr'. congruence.
    + intros (m' & this & arg & Heq & Hr'). injection Heq as <- <- <-.
      rewrite Hcall in Hr'. cbn in Hr'. congruence.
  - unfold callee_no_arg. destruct (decide (p = NULL)) as [Hp|Hp].
    { rewrite func_no_args_no_context by auto. cbn. split; [done|]. by intros (?&?&?&?). }
    destruct (heap s !! p) as [c|] eqn:Hc; cbn; last first.
    { rewrite func_no_args_no_context by auto. cbn. split; [done|]. by intros (?&?&?&?). }
    destruct (mf_no_arg c) as [m|] eqn:Hm; cbn; last first.
    { rewrite (func_no_args_no_callee s p c) by auto. cbn. split; [done|]. by intros (?&?&?&?). }
    destruct (decide (mp_ref c = NULL)) as [Hr|Hr].
    { rewrite (func_no_args_no_callee s p c) by auto. cbn. split; [done|]. by intros (?&?&?&?). }
    rewrite (func_no_args_live s p c m) by done.
    destruct (call_no_arg m (mp_ref c) (world s)) as [[r|e'|] w] eqn:Hcall;
      cbn; split; try done.
    + intros (m' & this & Heq & Hr'). injection Heq as <- <-.
      rewrite Hcall in Hr'. cbn in Hr'. congruence.
    + intros [= ->]. exists m, (mp_ref c). split; [done|]. by rewrite Hcall.
    + intros (m' & this & Heq & Hr'). injection Heq as <- <-.
      rewrite Hcall in Hr'. cbn in Hr'. congruence.
    + intros (m' & this & Heq & Hr'). injection Heq as <- <-.
      rewrite Hcall in Hr'. cbn in Hr'. congruence.
Qed.

(** ** The argument field on the no-argument path *)

Lemma without_poke_arg s p x : without p (poke_arg p x s) = without p s.
Proof.
  unfold poke_arg, without. destruct (heap s !! p) as [c|]; [|done].
  unfold set_heap. cbn. by rewrite delete_insert_eq.
Qed.

Lemma without_destroyed s p : without p (destroyed p s) = destroyed p s.
Proof. unfold without, destroyed, log, set_heap. cbn. by rewrite delete_delete_eq. Qed.

Lemma destroyed_without s p : destroyed p (without p s) = destroyed p s.
Proof. unfold without, destroyed, log, set_heap. cbn. by rewrite delete_delete_eq. Qed.

Lemma without_called_no_arg s p m this w :
  without p (called_no_arg m this w s) = called_no_arg m this w (without p s).
Proof. reflexivity. Qed.

Lemma destroyed_poke_arg s p x m this w :
  destroyed p (called_no_arg m this w (poke_arg p x s)) =
  destroyed p (called_no_arg m this w s).
Proof.
  rewrite <- (destroyed_without (called_no_arg m this w (poke_arg p x s))).
  rewrite <- (destroyed_without (called_no_arg m this w s)).
  by rewrite !without_called_no_arg, without_poke_arg.
Qed.

(** C9: the no-argument constructor sets the argument field to null,
    and the no-argument trampoline does not depend on that field:
    whatever value the field holds, the trampoline ends the same way and
    leaves the same state (the same state outright when it returns, the
    same state apart from the context itself otherwise); it never calls a
    member function with an argument. *)
Theorem no_arg_path_ignores_argument s p (p_ref : ptr) (f : pmf) (x : ptr) :
  mp_arg (mthread_ctor_no_arg p_ref f) = NULL ∧
  (func_no_args p (poke_arg p x s)).1 = (func_no_args p s).1 ∧
  without p (func_no_args p (poke_arg p x s)).2 = without p (func_no_args p s).2 ∧
  (∀ r, (func_no_args p s).1 = Returns r →
        (func_no_args p (poke_arg p x s)).2 = (func_no_args p s).2) ∧
  (∀ m this arg, EvCallArg m this arg ∈ trace (func_no_args p s).2 →
                 EvCallArg m this arg ∈ trace s).
Proof.
  split; [done|].
  destruct (decide (p = NULL)) as [Hp|Hp].
  { rewrite !func_no_args_no_context by auto. cbn.
    split_and!; [done|apply without_poke_arg|done|done]. }
  destruct (heap s !! p) as [c|] eqn:Hc; last first.
  { assert (poke_arg p x s = s) as -> by (unfold poke_arg; by rewrite Hc).
    rewrite !func_no_args_no_context by auto. done. }
  pose (c' := Mthread (mp_ref c) x (mf_no_arg c) (mf_arg c)).
  assert (heap (poke_arg p x s) !! p = Some c') as Hc'.
  { unfold poke_arg. rewrite Hc. cbn. apply lookup_insert_eq. }
  assert (world (poke_arg p x s) = world s) as Hw.
  { unfold poke_arg. by rewrite Hc. }
  destruct (mf_no_arg c) as [m|] eqn:Hm; last first.
  { rewrite (func_no_args_no_callee s p c), (func_no_args_no_callee _ p c') by auto.
    cbn. split_and!; [done|apply without_poke_arg|done|done]. }
  destruct (decide (mp_ref c = NULL)) as [Hr|Hr].
  { rewrite (func_no_args_no_callee s p c), (func_no_args_no_callee _ p c') by auto.
    cbn. split_and!; [done|apply without_poke_arg|done|done]. }
  rewrite (func_no_args_live s p c m), (func_no_args_live _ p c' m) by done.
  rewrite Hw. cbn [mp_ref c'].
  destruct (call_no_arg m (mp_ref c) (world s)) as [[r|e|] w]; cbn [fst snd].
  - split_and!; [done| |intros _ _; apply destroyed_poke_arg|].
    + by rewrite !without_destroyed, destroyed_poke_arg.
    + intros m' this arg. cbn. rewrite !elem_of_app, !list_elem_of_singleton.
      intuition discriminate.
  - split_and!; [done| |done|].
    + by rewrite !without_called_no_arg, without_poke_arg.
    + intros m' this arg. cbn. rewrite !elem_of_app, !list_elem_of_singleton.
      intuition discriminate.
  - split_and!; [done| |done|].
    + by rewrite !without_called_no_arg, without_poke_arg.
    + intros m' this arg. cbn. rewrite !elem_of_app, !list_elem_of_singleton.
      intuition discriminate.
Qed.

(** ** Pending threads and their contexts *)

Lemma func_args_returns s p r s' :
  func_args p s = (Returns r, s') →
  r = NULL ∧ p ≠ NULL ∧ is_Some (heap s !! p) ∧
  heap s' = delete p (heap s) ∧ threads s' = threads s.
Proof.
  destruct (decide (p = NULL)) as [Hp|Hp].
  { by rewrite func_args_no_context by auto. }
  destruct (heap s !! p) as [c|] eqn:Hc; last first.
  { by rewrite func_args_no_context by auto. }
  destruct (mf_arg c) as [m|] eqn:Hm; last first.
  { by rewrite (func_args_no_callee s p c) by auto. }
  destruct (decide (mp_ref c = NULL)) as [Hr|Hr].
  { by rewrite (func_args_no_callee s p c) by auto. }
  rewrite (func_args_live s p c m) by done.
  destruct (call_arg m (mp_ref c) (mp_arg c) (world s)) as [[r'|e|] w]; [|done..].
  intros [= <- <-]. split_and!; eauto.
Qed.

Lemma func_no_args_returns s p r s' :
  func_no_args p s = (Returns r, s') →
  r = NULL ∧ p ≠ NULL ∧ is_Some (heap s !! p) ∧
  heap s' = delete p (heap s) ∧ threads s' = threads s.
Proof.
  destruct (decide (p = NULL)) as [Hp|Hp].
  { by rewrite func_no_args_no_context by auto. }
  destruct (heap s !! p) as [c|] eqn:Hc; last first.
  { by rewrite func_no_args_no_context by auto. }
  destruct (mf_no_arg c) as [m|] eqn:Hm; last first.
  { by rewrite (func_no_args_no_callee s p c) by auto. }
  destruct (decide (mp_ref c = NULL)) as [Hr|Hr].
  { by rewrite (func_no_args_no_callee s p c) by auto. }
  rewrite (func_no_args_live s p c m) by done.
  destruct (call_no_arg m (mp_ref c) (world s)) as [[r'|e|] w]; [|done..].
  intros [= <- <-]. split_and!; eauto.
Qed.

Lemma run_start_routine_returns start s p r s' :
  run_start_routine start p s = (Returns r, s') →
  r = NULL ∧ p ≠ NULL ∧ is_Some (heap s !! p) ∧
  heap s' = delete p (heap s) ∧ threads s' = threads s.
Proof. destruct start; [apply func_no_args_returns|apply func_args_returns]. Qed.

Lemma owned_fresh s : contexts_owned s → new_addr (heap s) ∉ payloads s.
Proof.
  intros [_ Hlive] Hin. rewrite Forall_forall in Hlive.
  destruct (Hlive _ Hin) as [c Hc]. by rewrite new_addr_fresh in Hc.
Qed.

Lemma new_mthread_owned s c :
  contexts_owned s → contexts_owned (new_mthread c s).2.
Proof.
  intros [Hnd Hlive]. split; [done|]. cbn.
  eapply Forall_impl; [exact Hlive|]. intros a Ha. cbn in Ha.
  rewrite lookup_insert_is_Some. destruct (decide (new_addr (heap s) = a)); auto.
Qed.

Lemma pthread_create_owned s p_thread p_attr start p :
  contexts_owned s → is_Some (heap s !! p) → p ∉ payloads s →
  contexts_owned (pthread_create p_thread p_attr start p s).2.
Proof.
  intros [Hnd Hlive] Hp Hnew. unfold contexts_owned, payloads.
  rewrite pthread_create_heap, pthread_create_threads.
  case_decide; [|done]. rewrite fmap_app. cbn. split.
  - apply NoDup_app. split_and!; [done| |apply NoDup_singleton].
    intros a Ha ->%list_elem_of_singleton. done.
  - apply Forall_app. split; [done|]. by apply Forall_singleton.
Qed.

Lemma create_no_arg_owned s p_thread p_attr p_ref f :
  contexts_owned s → contexts_owned (create_no_arg p_thread p_attr p_ref f s).2.
Proof.
  intros Ho. rewrite create_no_arg_run. apply pthread_create_owned.
  - by apply (new_mthread_owned s (mthread_ctor_no_arg p_ref f)).
  - cbn. rewrite lookup_insert_eq. by eexists.
  - exact (owned_fresh s Ho).
Qed.

Lemma create_arg_owned s p_thread p_attr p_ref f p_arg :
  contexts_owned s → contexts_owned (create_arg p_thread p_attr p_ref f p_arg s).2.
Proof.
  intros Ho. rewrite create_arg_run. apply pthread_create_owned.
  - by apply (new_mthread_owned s (mthread_ctor_arg p_ref f p_arg)).
  - cbn. rewrite lookup_insert_eq. by eexists.
  - exact (owned_fresh s Ho).
Qed.

Lemma payloads_split s ts1 t ts2 :
  threads s = ts1 ++ t :: ts2 → NoDup (payloads s) →
  t_payload t ∈ payloads s ∧
  NoDup (t_payload <$> ts1 ++ ts2) ∧
  (∀ a, a ∈ t_payload <$> ts1 ++ ts2 → a ∈ payloads s ∧ a ≠ t_payload t).
Proof.
  unfold payloads. intros -> Hnd.
  assert (t_payload <$> ts1 ++ t :: ts2 ≡ₚ t_payload t :: (t_payload <$> ts1 ++ ts2)) as Hperm.
  { rewrite !fmap_app, fmap_cons. symmetry. apply Permutation_middle. }
  rewrite Hperm in Hnd. apply NoDup_cons in Hnd as [Hnotin Hnd].
  split_and!; [|done|].
  - rewrite Hperm. apply list_elem_of_here.
  - intros a Ha. split; [|by intros ->].
    rewrite Hperm. by apply list_elem_of_further.
Qed.

Lemma step_owned s s' : contexts_owned s → step s s' → contexts_owned s'.
Proof.
  intros Ho Hstep. destruct Hstep as [s ? ? ? ?|s ? ? ? ? ?|s ts1 t ts2 r s' Hts Hrun|s w].
  - by apply create_no_arg_owned.
  - by apply create_arg_owned.
  - apply run_start_routine_returns in Hrun as (_ & _ & _ & Hheap & Hthreads).
    destruct Ho as [Hnd Hlive].
    destruct (payloads_split s ts1 t ts2 Hts Hnd) as (_ & Hnd' & Hsub).
    unfold contexts_owned, payloads. rewrite Hthreads, Hheap. cbn. split; [done|].
    apply Forall_forall. intros a Ha. destruct (Hsub a Ha) as [Hin Hne].
    rewrite Forall_forall in Hlive. apply lookup_delete_is_Some. split; [done|].
    by apply Hlive.
  - done.
Qed.

Lemma reachable_owned s s' : contexts_owned s → rtc step s s' → contexts_owned s'.
Proof. intros Ho Hsteps. induction Hsteps; eauto using step_owned. Qed.

(** A context no pending thread refers to stays where it is. *)
Lemma step_keeps_unreferenced s s' p c :
  contexts_owned s → heap s !! p = Some c → p ∉ payloads s → step s s' →
  heap s' !! p = Some c ∧ p ∉ payloads s'.
Proof.
  intros Ho Hc Hp Hstep.
  assert (new_addr (heap s) ≠ p) as Hne.
  { intros <-. by rewrite new_addr_fresh in Hc. }
  destruct Hstep as [s ? ? ? ?|s ? ? ? ? ?|s ts1 t ts2 r s' Hts Hrun|s w].
  - rewrite create_no_arg_heap, lookup_insert_ne by done. split; [done|].
    unfold payloads. rewrite create_no_arg_run, pthread_create_threads.
    case_decide; [|done]. rewrite fmap_app, elem_of_app. cbn.
    rewrite list_elem_of_singleton. intros [?|?]; [by apply Hp|by apply Hne].
  - rewrite create_arg_heap, lookup_insert_ne by done. split; [done|].
    unfold payloads. rewrite create_arg_run, pthread_create_threads.
    case_decide; [|done]. rewrite fmap_app, elem_of_app. cbn.
    rewrite list_elem_of_singleton. intros [?|?]; [by apply Hp|by apply Hne].
  - apply run_start_routine_returns in Hrun as (_ & _ & _ & Hheap & Hthreads).
    destruct Ho as [Hnd Hlive].
    destruct (payloads_split s ts1 t ts2 Hts Hnd) as (Hin & _ & Hsub).
    unfold payloads. rewrite Hthreads, Hheap. cbn. split.
    + rewrite lookup_delete_ne; [done|]. intros Heq. apply Hp. by rewrite <- Heq.
    + intros Ha. by apply Hp, Hsub.
  - done.
Qed.

Lemma reachable_keeps_unreferenced s s' p c :
  contexts_owned s → heap s !! p = Some c → p ∉ payloads s → rtc step s s' →
  heap s' !! p = Some c.
Proof.
  intros Ho Hc Hp Hsteps. induction Hsteps as [s|s s1 s' Hstep Hsteps IH]; [done|].
  destruct (step_keeps_unreferenced s s1 p c Ho Hc Hp Hstep) as [Hc1 Hp1].
  apply IH; eauto using step_owned.
Qed.

Lemma create_no_arg_trace s p_thread p_attr p_ref f :
  trace (create_no_arg p_thread p_attr p_ref f s).2 =
    trace s ++ [EvNew (new_addr (heap s)) (mthread_ctor_no_arg p_ref f);
                EvPthreadCreate p_thread p_attr FuncNoArgs (new_addr (heap s))
                  (native_status (threads s) p_attr)].
Proof. rewrite create_no_arg_run, pthread_create_trace. cbn. by rewrite <- app_assoc. Qed.

Lemma create_arg_trace s p_thread p_attr p_ref f p_arg :
  trace (create_arg p_thread p_attr p_ref f p_arg s).2 =
    trace s ++ [EvNew (new_addr (heap s)) (mthread_ctor_arg p_ref f p_arg);
                EvPthreadCreate p_thread p_attr FuncArgs (new_addr (heap s))
                  (native_status (threads s) p_attr)].
Proof. rewrite create_arg_run, pthread_create_trace. cbn. by rewrite <- app_assoc. Qed.

Lemma create_no_arg_threads s p_thread p_attr p_ref f :
  threads (create_no_arg p_thread p_attr p_ref f s).2 =
    if decide (native_status (threads s) p_attr = 0%Z)
    then threads s ++ [Thread (next_tid s) FuncNoArgs (new_addr (heap s))]
    else threads s.
Proof. by rewrite create_no_arg_run, pthread_create_threads. Qed.

Lemma create_arg_threads s p_thread p_attr p_ref f p_arg :
  threads (create_arg p_thread p_attr p_ref f p_arg s).2 =
    if decide (native_status (threads s) p_attr = 0%Z)
    then threads s ++ [Thread (next_tid s) FuncArgs (new_addr (heap s))]
    else threads s.
Proof. by rewrite create_arg_run, pthread_create_threads. Qed.

(** C4: in a state where every pending thread has a live context of its
    own, each launch takes one address that is not null, not in use and
    not the payload of any pending thread, adds to the heap exactly the
    context its constructor built at that address, and calls
    [pthread_create] once, with the trampoline of its arity and that
    address as payload; afterwards every pending thread still has a live
    context of its own. *)
Theorem create_allocates_one_context s p_thread p_attr (p_ref : ptr) (f : pmf) (p_arg : ptr) :
  contexts_owned s →
  let p := new_addr (heap s) in
  let rc := native_status (threads s) p_attr in
  let s0 := (create_no_arg p_thread p_attr p_ref f s).2 in
  let s1 := (create_arg p_thread p_attr p_ref f p_arg s).2 in
  (p ≠ NULL ∧ heap s !! p = None ∧ p ∉ payloads s) ∧
  (heap s0 = <[p := mthread_ctor_no_arg p_ref f]> (heap s) ∧
   trace s0 = trace s ++ [EvNew p (mthread_ctor_no_arg p_ref f);
                          EvPthreadCreate p_thread p_attr FuncNoArgs p rc] ∧
   threads s0 = (if decide (rc = 0%Z)
                 then threads s ++ [Thread (next_tid s) FuncNoArgs p]
                 else threads s) ∧
   contexts_owned s0) ∧
  (heap s1 = <[p := mthread_ctor_arg p_ref f p_arg]> (heap s) ∧
   trace s1 = trace s ++ [EvNew p (mthread_ctor_arg p_ref f p_arg);
                          EvPthreadCreate p_thread p_attr FuncArgs p rc] ∧
   threads s1 = (if decide (rc = 0%Z)
                 then threads s ++ [Thread (next_tid s) FuncArgs p]
                 else threads s) ∧
   contexts_owned s1).
Proof.
  intros Ho p rc s0 s1. split_and!.
  - apply new_addr_not_null.
  - apply new_addr_fresh.
  - by apply owned_fresh.
  - apply create_no_arg_heap.
  - apply create_no_arg_trace.
  - apply create_no_arg_threads.
  - by apply create_no_arg_owned.
  - apply create_arg_heap.
  - apply create_arg_trace.
  - apply create_arg_threads.
  - by apply create_arg_owned.
Qed.

(** C6: when [pthread_create] answers a nonzero code, the launch returns
    that code, no thread is added, and the context allocated for the call
    stays in the heap: it is there when the launch returns and in every
    state the program reaches afterwards. *)
Theorem failed_create_leaks_context s p_thread p_attr (p_ref : ptr) (f : pmf) (p_arg : ptr) :
  contexts_owned s →
  native_status (threads s) p_attr ≠ 0%Z →
  let p := new_addr (heap s) in
  let rc := native_status (threads s) p_attr in
  let r0 := create_no_arg p_thread p_attr p_ref f s in
  let r1 := create_arg p_thread p_attr p_ref f p_arg s in
  (r0.1 = Returns rc ∧ threads r0.2 = threads s ∧
   ∀ s', rtc step r0.2 s' → heap s' !! p = Some (mthread_ctor_no_arg p_ref f)) ∧
  (r1.1 = Returns rc ∧ threads r1.2 = threads s ∧
   ∀ s', rtc step r1.2 s' → heap s' !! p = Some (mthread_ctor_arg p_ref f p_arg)).
Proof.
  intros Ho Hrc p rc r0 r1.
  assert (threads r0.2 = threads s) as Ht0.
  { unfold r0. rewrite create_no_arg_threads. by rewrite decide_False. }
  assert (threads r1.2 = threads s) as Ht1.
  { unfold r1. rewrite create_arg_threads. by rewrite decide_False. }
  split_and!; try done.
  - unfold r0. rewrite create_no_arg_run. apply pthread_create_status.
  - intros s' Hsteps. eapply reachable_keeps_unreferenced; [| | |exact Hsteps].
    + by apply create_no_arg_owned.
    + unfold r0. rewrite create_no_arg_heap. apply lookup_insert_eq.
    + unfold payloads. rewrite Ht0. by apply owned_fresh.
  - unfold r1. rewrite create_arg_run. apply pthread_create_status.
  - intros s' Hsteps. eapply reachable_keeps_unreferenced; [| | |exact Hsteps].
    + by apply create_arg_owned.
    + unfold r1. rewrite create_arg_heap. apply lookup_insert_eq.
    + unfold payloads. rewrite Ht1. by apply owned_fresh.
Qed.

End Properties.

(** * Launching and running together *)

Section Composition.
Context `{OC : OwnerClass} `{PT : Pthreads}.

Implicit Types (s : state) (p a : ptr) (c : mthread).

(** ** Every run of a start routine has one of four shapes *)

Lemma func_args_ran s p : ran s p (func_args p s).
Proof.
  destruct (decide (p = NULL)) as [Hp|Hp].
  { rewrite func_args_no_context by auto. constructor. }
  destruct (heap s !! p) as [c|] eqn:Hc; last first.
  { rewrite func_args_no_context by auto. constructor. }
  destruct (mf_arg c) as [m|] eqn:Hm; last first.
  { rewrite (func_args_no_callee s p c) by auto. constructor. }
  destruct (decide (mp_ref c = NULL)) as [Hr|Hr].
  { rewrite (func_args_no_callee s p c) by auto. constructor. }
  rewrite (func_args_live s p c m) by done.
  destruct (call_arg m (mp_ref c) (mp_arg c) (world s)) as [[r|e|] w].
  - by apply (ran_returned s p c).
  - by apply (ran_raised s p c).
  - by apply (ran_wrong s p c).
Qed.

Lemma func_no_args_ran s p : ran s p (func_no_args p s).
Proof.
  destruct (decide (p = NULL)) as [Hp|Hp].
  { rewrite func_no_args_no_context by auto. constructor. }
  destruct (heap s !! p) as [c|] eqn:Hc; last first.
  { rewrite func_no_args_no_context by auto. constructor. }
  destruct (mf_no_arg c) as [m|] eqn:Hm; last first.
  { rewrite (func_no_args_no_callee s p c) by auto. constructor. }
  destruct (decide (mp_ref c = NULL)) as [Hr|Hr].
  { rewrite (func_no_args_no_callee s p c) by auto. constructor. }
  rewrite (func_no_args_live s p c m) by done.
  destruct (call_no_arg m (mp_ref c) (world s)) as [[r|e|] w].
  - by apply (ran_returned s p c).
  - by apply (ran_raised s p c).
  - by apply (ran_wrong s p c).
Qed.

Lemma run_start_routine_ran start s p : ran s p (run_start_routine start p s).
Proof. destruct start; [apply func_no_args_ran|apply func_args_ran]. Qed.

Lemma run_no_context start s p :
  p = NULL ∨ heap s !! p = None → run_start_routine start p s = (Undefined, s).
Proof.
  destruct start; [apply func_no_args_no_context|apply func_args_no_context].
Qed.

(** X1: a launch with an argument that the runtime accepts, followed by
    the run of the new thread whose member function returns, is a step of
    the program that leaves the heap and the pending threads as they were
    before the launch and the client's world as the member function left
    it: nothing stays allocated. *)
Theorem launch_then_run_arg s p_thread p_attr (owner : ptr) (m : method) (v : ptr)
    (r : R) (w : World) :
  owner ≠ NULL →
  native_status (threads s) p_attr = 0%Z →
  call_arg m owner v (world s) = (Returns r, w) →
  let s1 := (create_arg p_thread p_attr owner (Some m) v s).2 in
  let t := Thread (next_tid s) FuncArgs (new_addr (heap s)) in
  threads s1 = threads s ++ [t] ∧
  ∃ s2, run_start_routine (t_start t) (t_payload t) (set_threads (threads s) s1)
          = (Returns NULL, s2) ∧
        step s1 s2 ∧ heap s2 = heap s ∧ threads s2 = threads s ∧ world s2 = w.
Proof.
  intros Ho Hrc Hcall s1 t.
  assert (threads s1 = threads s ++ [t]) as Hts.
  { unfold s1. rewrite create_arg_threads. by rewrite decide_True. }
  assert (heap s1 = <[new_addr (heap s) := mthread_ctor_arg owner (Some m) v]> (heap s)) as Hh.
  { apply create_arg_heap. }
  assert (world s1 = world s) as Hw.
  { unfold s1. by rewrite create_arg_run, pthread_create_world. }
  split; [done|].
  pose (s1' := set_threads (threads s) s1).
  assert (func_args (new_addr (heap s)) s1' =
          (Returns NULL, destroyed (new_addr (heap s)) (called_arg m owner v w s1'))) as Hrun.
  { rewrite (func_args_live s1' _ (mthread_ctor_arg owner (Some m) v) m);
      [|apply new_addr_not_null|cbn; rewrite Hh; apply lookup_insert_eq|done..].
    cbn [mp_ref mp_arg mthread_ctor_arg]. cbn [world s1' set_threads].
    by rewrite Hw, Hcall. }
  eexists. split; [exact Hrun|]. split_and!.
  - eapply (step_run s1 (threads s) t [] NULL); [exact Hts|].
    rewrite app_nil_r. exact Hrun.
  - cbn. rewrite Hh, delete_insert_eq. apply delete_id, new_addr_fresh.
  - done.
  - done.
Qed.

(** X2: the same for a launch without argument. *)
Theorem launch_then_run_no_arg s p_thread p_attr (owner : ptr) (m : method)
    (r : R) (w : World) :
  owner ≠ NULL →
  native_status (threads s) p_attr = 0%Z →
  call_no_arg m owner (world s) = (Returns r, w) →
  let s1 := (create_no_arg p_thread p_attr owner (Some m) s).2 in
  let t := Thread (next_tid s) FuncNoArgs (new_addr (heap s)) in
  threads s1 = threads s ++ [t] ∧
  ∃ s2, run_start_routine (t_start t) (t_payload t) (set_threads (threads s) s1)
          = (Returns NULL, s2) ∧
        step s1 s2 ∧ heap s2 = heap s ∧ threads s2 = threads s ∧ world s2 = w.
Proof.
  intros Ho Hrc Hcall s1 t.
  assert (threads s1 = threads s ++ [t]) as Hts.
  { unfold s1. rewrite create_no_arg_threads. by rewrite decide_True. }
  assert (heap s1 = <[new_addr (heap s) := mthread_ctor_no_arg owner (Some m)]> (heap s)) as Hh.
  { apply create_no_arg_heap. }
  assert (world s1 = world s) as Hw.
  { unfold s1. by rewrite create_no_arg_run, pthread_create_world. }
  split; [done|].
  pose (s1' := set_threads (threads s) s1).
  assert (func_no_args (new_addr (heap s)) s1' =
          (Returns NULL, destroyed (new_addr (heap s)) (called_no_arg m owner w s1'))) as Hrun.
  { rewrite (func_no_args_live s1' _ (mthread_ctor_no_arg owner (Some m)) m);
      [|apply new_addr_not_null|cbn; rewrite Hh; apply lookup_insert_eq|done..].
    cbn [mp_ref mthread_ctor_no_arg]. cbn [world s1' set_threads].
    by rewrite Hw, Hcall. }
  eexists. split; [exact Hrun|]. split_and!.
  - eapply (step_run s1 (threads s) t [] NULL); [exact Hts|].
    rewrite app_nil_r. exact Hrun.
  - cbn. rewrite Hh, delete_insert_eq. apply delete_id, new_addr_fresh.
  - done.
  - done.
Qed.

(** X3: when the member function raises, the start routine stops there:
    the context is still allocated, untouched, and nothing was released. *)
Theorem raising_run_keeps_context start s p (e : Exn) s' :
  run_start_routine start p s = (Raises e, s') →
  p ≠ NULL ∧ heap s' = heap s ∧ is_Some (heap s' !! p) ∧
  threads s' = threads s ∧
  tally is_free (trace s') = tally is_free (trace s).
Proof.
  intros Hrun. pose proof (run_start_routine_ran start s p) as Hran.
  rewrite Hrun in Hran. inversion Hran as [| |c ev w e' Hp Hc Hev|]; subst.
  cbn. split_and!; [done|done|by rewrite Hc|done|].
  unfold tally. rewrite List.filter_app, length_app. cbn.
  destruct ev; cbn; (done || lia).
Qed.


(** X5: a start routine that returns has returned the null pointer and
    has released its context, so running any start routine on the same
    pointer again has no defined behaviour and changes nothing. *)
Theorem run_twice_is_undefined start s p (r : ptr) s' :
  run_start_routine start p s = (Returns r, s') →
  r = NULL ∧ heap s' !! p = None ∧
  ∀ start', run_start_routine start' p s' = (Undefined, s').
Proof.
  intros Hrun. pose proof (run_start_routine_ran start s p) as Hran.
  rewrite Hrun in Hran. inversion Hran as [|c ev w Hp Hc Hev| |]; subst.
  assert (heap (destroyed p (set_world w (log ev s))) !! p = None) as Hgone.
  { apply destroyed_gone. }
  split_and!; [done|done|]. intros start'. apply run_no_context. by right.
Qed.

(** X6: a start routine run on a context built by the constructor of the
    other arity finds a null pointer to member and has no defined
    behaviour: the two constructors and the two start routines only work
    in the pairs the launch operations use. *)
Theorem other_arity_is_undefined start start' s p c :
  heap s !! p = Some c → built_for start c → start' ≠ start →
  run_start_routine start' p s = (Undefined, s).
Proof.
  intros Hc Hb Hne. destruct start, start'; try done; cbn in Hb |- *.
  - apply (func_args_no_callee s p c Hc). left. by rewrite Hb.
  - apply (func_no_args_no_callee s p c Hc). left. by rewrite Hb.
Qed.

(** X7: a launch checks neither the owner nor the procedure pointer.
    With a null owner or a null pointer to member it still answers the
    runtime's status, and the start routine it scheduled has no defined
    behaviour on the context it built. *)
Theorem launch_checks_nothing s p_thread p_attr (p_ref : ptr) (f : pmf) (p_arg : ptr) :
  p_ref = NULL ∨ f = PMF_NULL →
  let p := new_addr (heap s) in
  let r0 := create_no_arg p_thread p_attr p_ref f s in
  let r1 := create_arg p_thread p_attr p_ref f p_arg s in
  r0.1 = Returns (native_status (threads s) p_attr) ∧
  func_no_args p r0.2 = (Undefined, r0.2) ∧
  r1.1 = Returns (native_status (threads s) p_attr) ∧
  func_args p r1.2 = (Undefined, r1.2).
Proof.
  intros Hnull p r0 r1. split_and!.
  - unfold r0. rewrite create_no_arg_run. exact (pthread_create_status _ _ _ _ _).
  - apply (func_no_args_no_callee _ p (mthread_ctor_no_arg p_ref f)).
    + unfold r0. rewrite create_no_arg_heap. apply lookup_insert_eq.
    + cbn. tauto.
  - unfold r1. rewrite create_arg_run. exact (pthread_create_status _ _ _ _ _).
  - apply (func_args_no_callee _ p (mthread_ctor_arg p_ref f p_arg)).
    + unfold r1. rewrite create_arg_heap. apply lookup_insert_eq.
    + cbn. tauto.
Qed.

(** ** Pending threads keep a context of their arity *)

Lemma built_threads_mono (h h' : gmap N mthread) (ts : list thread) :
  (∀ t c, t ∈ ts → h !! t_payload t = Some c → h' !! t_payload t = Some c) →
  Forall (λ t, ∃ c, h !! t_payload t = Some c ∧ built_for (t_start t) c) ts →
  Forall (λ t, ∃ c, h' !! t_payload t = Some c ∧ built_for (t_start t) c) ts.
Proof.
  intros Hmono. rewrite !Forall_forall. intros Hall t Ht.
  destruct (Hall t Ht) as (c & Hc & Hb). exists c. split; [|done]. by apply Hmono.
Qed.

Lemma pthread_create_well_launched s p_thread p_attr start p c :
  well_launched s → heap s !! p = Some c → built_for start c → p ∉ payloads s →
  well_launched (pthread_create p_thread p_attr start p s).2.
Proof.
  intros [Ho Hall] Hc Hb Hp. split.
  - apply pthread_create_owned; [done| |done]. by rewrite Hc.
  - rewrite pthread_create_heap, pthread_create_threads.
    case_decide; [|done]. apply Forall_app. split; [done|].
    apply Forall_singleton. by exists c.
Qed.

Lemma new_mthread_well_launched s c :
  well_launched s → well_launched (new_mthread c s).2.
Proof.
  intros [Ho Hall]. split; [by apply new_mthread_owned|]. cbn.
  eapply built_threads_mono; [|exact Hall]. intros t c' _ Hc'.
  rewrite lookup_insert_ne; [done|]. intros Heq.
  by rewrite <- Heq, new_addr_fresh in Hc'.
Qed.

Lemma step_well_launched s s' : well_launched s → step s s' → well_launched s'.
Proof.
  intros Hwl Hstep.
  destruct Hstep as [s ? ? p_ref f|s ? ? p_ref f p_arg|s ts1 t ts2 r s' Hts Hrun|s w].
  - rewrite create_no_arg_run.
    apply (pthread_create_well_launched _ _ _ _ _ (mthread_ctor_no_arg p_ref f)).
    + by apply (new_mthread_well_launched s (mthread_ctor_no_arg p_ref f)).
    + cbn. apply lookup_insert_eq.
    + done.
    + exact (owned_fresh s (proj1 Hwl)).
  - rewrite create_arg_run.
    apply (pthread_create_well_launched _ _ _ _ _ (mthread_ctor_arg p_ref f p_arg)).
    + by apply (new_mthread_well_launched s (mthread_ctor_arg p_ref f p_arg)).
    + cbn. apply lookup_insert_eq.
    + done.
    + exact (owned_fresh s (proj1 Hwl)).
  - split; [eapply step_owned; [exact (proj1 Hwl)|by eapply step_run]|].
    destruct Hwl as [[Hnd Hlive] Hall].
    apply run_start_routine_returns in Hrun as (_ & _ & _ & Hheap & Hthreads).
    destruct (payloads_split s ts1 t ts2 Hts Hnd) as (_ & _ & Hsub).
    rewrite Hthreads, Hheap. cbn.
    rewrite Hts in Hall. apply Forall_app in Hall as [Hall1 Hall2].
    apply Forall_cons in Hall2 as [_ Hall2].
    assert (Forall (λ t0, ∃ c, heap s !! t_payload t0 = Some c ∧ built_for (t_start t0) c)
              (ts1 ++ ts2)) as Hall' by (by apply Forall_app).
    eapply built_threads_mono; [|exact Hall']. intros t' c Ht' Hc.
    rewrite lookup_delete_ne; [done|]. intros Heq.
    destruct (Hsub (t_payload t')) as [_ Hne]; [by apply list_elem_of_fmap_2|].
    by apply Hne.
  - done.
Qed.

(** X8: in every state the program reaches from one where each pending
    thread has a live context of its own built by the constructor of the
    thread's arity, that is still so: launches and runs never leave a
    pending thread without its context, with a shared one, or with one of
    the other arity. *)
Theorem reachable_well_launched s s' :
  well_launched s → rtc step s s' → well_launched s'.
Proof. intros Hwl Hsteps. induction Hsteps; eauto using step_well_launched. Qed.

(** ** What the trace counts *)






End Composition.

(** * The properties on the usage example *)

#[local] Existing Instance Demo.SomeClass.
#[local] Existing Instance Demo.two_threads.

Example launched_arg_returns_42 :
  (world (func_args 1 Demo.launched_arg).2) !! 10 = Some 42%Z.
Proof. reflexivity. Qed.

Example third_launch_fails :
  (mthread_create_no_arg 102 0 10 (Some 0) Demo.launched_twice).1 = Returns Demo.EAGAIN.
Proof. reflexivity. Qed.

Lemma func_args_runs_bound_call_witness :
  (10 : ptr) ≠ NULL ∧
  func_args 1 Demo.launched_arg =
    (Returns NULL,
     destroyed 1 (called_arg 1 10 20 (<[10 := 42%Z]> (world Demo.launched_arg)) Demo.launched_arg)).
Proof.
  split; [done|].
  destruct (func_args_runs_bound_call Demo.start 100 0 10 1 20 ltac:(done)) as [Hc Hrun].
  exact (Hrun Demo.launched_arg Hc).
Defined.

Lemma func_no_args_runs_bound_call_witness :
  (10 : ptr) ≠ NULL ∧
  func_no_args 1 (create_no_arg 100 0 10 (Some 0) Demo.start).2 =
    (Returns NULL,
     destroyed 1 (called_no_arg 0 10 (<[10 := 1%Z]> (world Demo.start))
                    (create_no_arg 100 0 10 (Some 0) Demo.start).2)).
Proof.
  split; [done|].
  destruct (func_no_args_runs_bound_call Demo.start 100 0 10 0 ltac:(done)) as [Hc Hrun].
  exact (Hrun _ Hc).
Defined.

(** When the caller passes a null pointer to member, neither field is
    set: it is not the case that exactly one is, after either constructor
    and in the context a launch leaves in the heap. *)
Lemma null_procedure_sets_no_field :
  ¬ exactly_one_set (mthread_ctor_no_arg 10 PMF_NULL) ∧
  ¬ exactly_one_set (mthread_ctor_arg 10 PMF_NULL 20) ∧
  ∃ c, heap (create_no_arg 100 0 10 PMF_NULL Demo.start).2 !! 1 = Some c ∧
       ¬ exactly_one_set c.
Proof.
  assert (∀ p_ref p_arg, ¬ exactly_one_set (Mthread p_ref p_arg PMF_NULL PMF_NULL)) as Hnone.
  { intros p_ref p_arg [[Hset _]|[_ Hset]]; by apply Hset. }
  split_and!; [apply Hnone..|].
  eexists. split; [reflexivity|apply Hnone].
Qed.

Lemma create_allocates_one_context_witness :
  contexts_owned Demo.launched_arg ∧
  (new_addr (heap Demo.launched_arg) ∉ payloads Demo.launched_arg) ∧
  contexts_owned (create_no_arg 101 0 10 (Some 0) Demo.launched_arg).2.
Proof.
  assert (contexts_owned Demo.launched_arg) as Ho.
  { apply (bool_decide_unpack _). vm_compute. exact I. }
  split; [exact Ho|].
  destruct (create_allocates_one_context Demo.launched_arg 101 0 10 (Some 0) 20 Ho)
    as ((_ & _ & Hfresh) & (_ & _ & _ & Ho') & _).
  split; [exact Hfresh|exact Ho'].
Defined.

Lemma failed_create_leaks_context_witness :
  contexts_owned Demo.launched_twice ∧
  native_status (threads Demo.launched_twice) 0 ≠ 0%Z ∧
  (create_arg 102 0 10 (Some 1) 20 Demo.launched_twice).1 = Returns Demo.EAGAIN ∧
  ∀ s', rtc step (create_arg 102 0 10 (Some 1) 20 Demo.launched_twice).2 s' →
        heap s' !! 3 = Some (mthread_ctor_arg 10 (Some 1) 20).
Proof.
  assert (contexts_owned Demo.launched_twice) as Ho.
  { apply (bool_decide_unpack _). vm_compute. exact I. }
  assert (native_status (threads Demo.launched_twice) 0 ≠ 0%Z) as Hrc.
  { vm_compute. discriminate. }
  split; [exact Ho|]. split; [exact Hrc|].
  destruct (failed_create_leaks_context Demo.launched_twice 102 0 10 (Some 1) 20 Ho Hrc)
    as (_ & Hret & _ & Hkept).
  split; [exact Hret|exact Hkept].
Defined.

Lemma dtor_clears_references_only_witness :
  heap Demo.launched_arg !! 1 = Some (mthread_ctor_arg 10 (Some 1) 20) ∧
  ∃ s', mthread_dtor 1 Demo.launched_arg = (Returns tt, s') ∧
    heap s' !! 1 = Some (Mthread NULL NULL PMF_NULL (Some 1)) ∧
    world s' = world Demo.launched_arg.
Proof.
  assert (heap Demo.launched_arg !! 1 = Some (mthread_ctor_arg 10 (Some 1) 20)) as Hc
    by reflexivity.
  split; [exact Hc|].
  destruct (dtor_clears_references_only Demo.launched_arg 1 _ Hc)
    as (s' & Hrun & Hfields & Hworld & _).
  exists s'. split; [exact Hrun|]. split; [exact Hfields|exact Hworld].
Defined.

(** * Launching and running on the usage example *)

Example thrower_keeps_context :
  heap ((func_args 1 DemoRuns.launched_thrower).2) = heap DemoRuns.launched_thrower.
Proof. reflexivity. Qed.

Lemma demo_reaches_first_joined : rtc step Demo.start DemoRuns.first_joined.
Proof.
  eapply rtc_l; [exact (step_create_no_arg Demo.start 100 0 10 (Some 0))|].
  eapply rtc_l; [exact (step_create_no_arg _ 101 0 10 (Some 0))|].
  apply rtc_once.
  apply (step_run Demo.launched_twice [] (Thread 0 FuncNoArgs 1) [Thread 1 FuncNoArgs 2] NULL);
    reflexivity.
Qed.

Lemma launch_then_run_arg_witness :
  (10 : ptr) ≠ NULL ∧
  native_status (threads Demo.start) 0 = 0%Z ∧
  call_arg 1 10 20 (world Demo.start) = (Returns tt, <[10 := 42%Z]> (world Demo.start)) ∧
  ∃ s2, step Demo.launched_arg s2 ∧ heap s2 = heap Demo.start ∧
        world s2 = <[10 := 42%Z]> (world Demo.start).
Proof.
  assert ((10 : ptr) ≠ NULL) as Ho by done.
  assert (native_status (threads Demo.start) 0 = 0%Z) as Hrc by reflexivity.
  assert (call_arg 1 10 20 (world Demo.start)
          = (Returns tt, <[10 := 42%Z]> (world Demo.start))) as Hcall by reflexivity.
  split_and!; [exact Ho|exact Hrc|exact Hcall|].
  destruct (launch_then_run_arg Demo.start 100 0 10 1 20 tt _ Ho Hrc Hcall)
    as (_ & s2 & _ & Hstep & Hheap & _ & Hw).
  exists s2. split_and!; [exact Hstep|exact Hheap|exact Hw].
Defined.

Lemma launch_then_run_no_arg_witness :
  (10 : ptr) ≠ NULL ∧
  native_status (threads Demo.start) 0 = 0%Z ∧
  call_no_arg 0 10 (world Demo.start) = (Returns tt, <[10 := 1%Z]> (world Demo.start)) ∧
  ∃ s2, step (create_no_arg 100 0 10 (Some 0) Demo.start).2 s2 ∧
        heap s2 = heap Demo.start ∧
        world s2 = <[10 := 1%Z]> (world Demo.start).
Proof.
  assert ((10 : ptr) ≠ NULL) as Ho by done.
  assert (native_status (threads Demo.start) 0 = 0%Z) as Hrc by reflexivity.
  assert (call_no_arg 0 10 (world Demo.start)
          = (Returns tt, <[10 := 1%Z]> (world Demo.start))) as Hcall by reflexivity.
  split_and!; [exact Ho|exact Hrc|exact Hcall|].
  destruct (launch_then_run_no_arg Demo.start 100 0 10 0 tt _ Ho Hrc Hcall)
    as (_ & s2 & _ & Hstep & Hheap & _ & Hw).
  exists s2. split_and!; [exact Hstep|exact Hheap|exact Hw].
Defined.

Lemma raising_run_keeps_context_witness :
  (func_args 1 DemoRuns.launched_thrower).1 = Raises 20 ∧
  is_Some (heap ((func_args 1 DemoRuns.launched_thrower).2) !! 1).
Proof.
  assert (run_start_routine FuncArgs 1 DemoRuns.launched_thrower
          = (Raises 20, (func_args 1 DemoRuns.launched_thrower).2)) as Hrun by reflexivity.
  split; [reflexivity|].
  destruct (raising_run_keeps_context FuncArgs DemoRuns.launched_thrower 1 20 _ Hrun)
    as (_ & _ & Hlive & _).
  exact Hlive.
Defined.

Lemma run_twice_is_undefined_witness :
  (func_args 1 Demo.launched_arg).1 = Returns NULL ∧
  (func_args 1 (func_args 1 Demo.launched_arg).2).1 = Undefined.
Proof.
  assert (run_start_routine FuncArgs 1 Demo.launched_arg
          = (Returns NULL, (func_args 1 Demo.launched_arg).2)) as Hrun by reflexivity.
  split; [reflexivity|].
  destruct (run_twice_is_undefined FuncArgs Demo.launched_arg 1 NULL _ Hrun)
    as (_ & _ & Hagain).
  change (func_args 1 (func_args 1 Demo.launched_arg).2)
    with (run_start_routine FuncArgs 1 (func_args 1 Demo.launched_arg).2).
  by rewrite (Hagain FuncArgs).
Defined.

Lemma other_arity_is_undefined_witness :
  heap Demo.launched_arg !! 1 = Some (mthread_ctor_arg 10 (Some 1) 20) ∧
  built_for FuncArgs (mthread_ctor_arg 10 (Some 1) 20) ∧
  FuncNoArgs ≠ FuncArgs ∧
  func_no_args 1 Demo.launched_arg = (Undefined, Demo.launched_arg).
Proof.
  assert (heap Demo.launched_arg !! 1 = Some (mthread_ctor_arg 10 (Some 1) 20)) as Hc
    by reflexivity.
  assert (built_for FuncArgs (mthread_ctor_arg 10 (Some 1) 20)) as Hb by reflexivity.
  assert (FuncNoArgs ≠ FuncArgs) as Hne by done.
  split_and!; [exact Hc|exact Hb|exact Hne|].
  exact (other_arity_is_undefined FuncArgs FuncNoArgs Demo.launched_arg 1 _ Hc Hb Hne).
Defined.

Lemma launch_checks_nothing_witness :
  (NULL = NULL ∨ Some 0 = PMF_NULL) ∧
  (create_no_arg 100 0 NULL (Some 0) Demo.start).1 = Returns 0%Z ∧
  func_no_args 1 DemoRuns.launched_null_owner = (Undefined, DemoRuns.launched_null_owner).
Proof.
  assert (NULL = NULL ∨ Some 0 = PMF_NULL) as Hnull by (left; reflexivity).
  split; [exact Hnull|].
  destruct (launch_checks_nothing Demo.start 100 0 NULL (Some 0) 20 Hnull)
    as (Hret & Hrun & _).
  split; [exact Hret|exact Hrun].
Defined.

Lemma reachable_well_launched_witness :
  well_launched Demo.start ∧
  rtc step Demo.start DemoRuns.first_joined ∧
  well_launched DemoRuns.first_joined.
Proof.
  assert (well_launched Demo.start) as Hwl.
  { split; [|constructor]. apply (bool_decide_unpack _). vm_compute. exact I. }
  split; [exact Hwl|]. split; [exact demo_reaches_first_joined|].
  exact (reachable_well_launched _ _ Hwl demo_reaches_first_joined).
Defined.

